(** * A shallow embedding of the cural crate (src/src/process.rs, src/src/module.rs)

    The operating system services the crate calls (CreateToolhelp32Snapshot,
    Process32Next, Module32First, Module32Next, OpenProcess, CloseHandle,
    ReadProcessMemory, WriteProcessMemory) are external collaborators; they
    are modelled here as explicit state passing over a handle table, with the
    contents of a snapshot fixed when it is taken (a point-in-time view). *)

From Stdlib Require Import ZArith List Lia Bool String Ascii.
From Stdlib Require Import Eqdep_dec.
Import ListNotations.
Open Scope Z_scope.

(** ** Rust data: bytes, characters, strings *)

(** A [u8] as a [Z] in [0, 256). *)
Definition u8 := Z.

(** A Rust [char] as its Unicode scalar value; a Rust [String] as the
    sequence of its [char]s (String equality is equality of this sequence). *)
Definition rchar := Z.
Definition RString := list rchar.

Definition rstr_eqb (a b : RString) : bool :=
  if list_eq_dec Z.eq_dec a b then true else false.

(** [byte as char]: a [u8] is the scalar value of the same number. *)
Definition byte_as_char (b : u8) : rchar := b.

(** Plain ASCII text as a Rust string, for concrete inputs. *)
Definition rstr (s : string) : RString :=
  map (fun c => Z.of_nat (nat_of_ascii c)) (list_ascii_of_string s).

(** The decoding used in [all], [find], [get_module] and
    [get_all_modules]:
    [buf.into_iter().take_while(|byte| byte != &0).map(|byte| byte as char)
       .collect::<String>()]. *)
Fixpoint take_while {A} (p : A -> bool) (l : list A) : list A :=
  match l with
  | [] => []
  | x :: l' => if p x then x :: take_while p l' else []
  end.

Definition decode_name (buf : list u8) : RString :=
  map byte_as_char (take_while (fun byte => negb (Z.eqb byte 0)) buf).

(** ** Handles and the OS handle table *)

Definition HANDLE := Z.
Definition INVALID_HANDLE_VALUE : HANDLE := -1.

(** [HANDLE::is_invalid] of the windows crate: [self.0 == -1 || self.0 == 0]. *)
Definition is_invalid (h : HANDLE) : bool := Z.eqb h (-1) || Z.eqb h 0.

(** The handle table: a counter for fresh handles, the handles currently
    open, and the log of every [CloseHandle] call in order. *)
Record OsState := {
  next_handle : nat;
  live : list HANDLE;
  closed : list HANDLE
}.

(** Handles the OS hands out: multiples of 4, never 0 or -1. *)
Definition fresh (s : OsState) : HANDLE := 4 * (Z.of_nat (next_handle s) + 1).

Definition alloc (s : OsState) : HANDLE * OsState :=
  let h := fresh s in
  (h, {| next_handle := S (next_handle s); live := h :: live s; closed := closed s |}).

Definition CloseHandle (h : HANDLE) (s : OsState) : OsState :=
  {| next_handle := next_handle s;
     live := remove Z.eq_dec h (live s);
     closed := closed s ++ [h] |}.

(** ** Records of the two snapshot flavours *)

(** [PROCESSENTRY32]: the process id and the fixed 260-byte, zero-padded
    [szExeFile] buffer (the fields the crate reads). *)
Record PROCESSENTRY32 := {
  th32ProcessID : Z;
  szExeFile : list u8
}.

(** [MODULEENTRY32]: the base address and the fixed 256-byte [szModule]. *)
Record MODULEENTRY32 := {
  modBaseAddr : Z;
  szModule : list u8
}.

(** ** The world the OS services answer from *)

(** Outcome of [CreateToolhelp32Snapshot]: an [Err], an [Ok] holding the
    invalid sentinel, or a fresh snapshot handle. *)
Inductive SnapOutcome := SnapErr | SnapInvalid | SnapOk.

(** Outcome of [OpenProcess(PROCESS_ALL_ACCESS, false, id)]: an [Err]
    (for instance a protected process), an [Ok] holding the null handle, or a
    fresh process handle. *)
Inductive OpenOutcome := OpenErr | OpenInvalid | OpenOk.

Record World := {
  w_snap : SnapOutcome;
  (** the records successive [Process32Next] calls yield on a process snapshot *)
  w_procs : list PROCESSENTRY32;
  (** the records of a module snapshot of a process id, as
      [Module32First] then [Module32Next] yield them *)
  w_mods : Z -> list MODULEENTRY32;
  (** the position of the module cursor in a freshly created module
      snapshot: the record a first [Module32Next] call yields *)
  w_mod_cursor0 : nat;
  w_open : Z -> OpenOutcome
}.

(** [Result<T, io::Error>], keeping the error's [io::ErrorKind]. *)
Inductive ErrorKind := Interrupted | NotFound | InvalidData.

Inductive io_result (A : Type) :=
| Ok : A -> io_result A
| Err : ErrorKind -> io_result A.
Arguments Ok {A} _.
Arguments Err {A} _.

Definition CreateToolhelp32Snapshot (w : World) (s : OsState)
  : io_result HANDLE * OsState :=
  match w_snap w with
  | SnapErr => (Err Interrupted, s)
  | SnapInvalid => (Ok INVALID_HANDLE_VALUE, s)
  | SnapOk => let (h, s1) := alloc s in (Ok h, s1)
  end.

Definition OpenProcess (w : World) (id : Z) (s : OsState)
  : io_result HANDLE * OsState :=
  match w_open w id with
  | OpenErr => (Err Interrupted, s)
  | OpenInvalid => (Ok 0, s)
  | OpenOk => let (h, s1) := alloc s in (Ok h, s1)
  end.

(** ** The value records *)

(** [#[derive(Clone)] pub struct Process { id: u32, name: String, handle: HANDLE }] *)
Record Process := {
  id : Z;
  name : RString;
  handle : HANDLE
}.

(** [pub struct Module { name: String, address: usize }] *)
Record Module := {
  m_name : RString;
  address : Z
}.

(** ** Process registry *)

Module ProcessImpl.

(** The [while Process32Next(snapshot, &mut entry) != 0] loop of
    [Process::all]; [rest] is the part of the snapshot not yet enumerated. *)
Fixpoint all_loop (w : World) (rest : list PROCESSENTRY32)
    (result : list Process) (s : OsState) : list Process * OsState :=
  match rest with
  | [] => (result, s)
  | entry :: rest' =>
      let id := th32ProcessID entry in
      match OpenProcess w id s with
      | (Err _, s1) => all_loop w rest' result s1            (* continue *)
      | (Ok handle, s1) =>
          if is_invalid handle then all_loop w rest' result s1 (* continue *)
          else
            let c_name := decode_name (szExeFile entry) in
            all_loop w rest'
              (result ++ [{| id := id; name := c_name; handle := handle |}]) s1
      end
  end.

(** [Process::all] *)
Definition all (w : World) (s : OsState) : io_result (list Process) * OsState :=
  match CreateToolhelp32Snapshot w s with
  | (Err _, s1) => (Err Interrupted, s1)
  | (Ok snapshot, s1) =>
      if Z.eqb snapshot INVALID_HANDLE_VALUE then (Err Interrupted, s1)
      else
        let (result, s2) := all_loop w (w_procs w) [] s1 in
        (Ok result, CloseHandle snapshot s2)
  end.

(** The loop of [Process::find]. *)
Fixpoint find_loop (w : World) (nm : RString) (snapshot : HANDLE)
    (rest : list PROCESSENTRY32) (s : OsState) : io_result Process * OsState :=
  match rest with
  | [] => (Err NotFound, s)
  | entry :: rest' =>
      let c_name := decode_name (szExeFile entry) in
      if negb (rstr_eqb nm c_name) then find_loop w nm snapshot rest' s
      else
        let id := th32ProcessID entry in
        match OpenProcess w id s with
        | (Err _, s1) => (Err Interrupted, s1)                 (* `?` *)
        | (Ok handle, s1) =>
            let s2 := CloseHandle snapshot s1 in
            if is_invalid handle then (Err InvalidData, s2)
            else (Ok {| id := id; name := c_name; handle := handle |}, s2)
        end
  end.

(** [Process::find] *)
Definition find (w : World) (nm : RString) (s : OsState)
  : io_result Process * OsState :=
  match CreateToolhelp32Snapshot w s with
  | (Err _, s1) => (Err Interrupted, s1)
  | (Ok snapshot, s1) =>
      if Z.eqb snapshot INVALID_HANDLE_VALUE then (Err Interrupted, s1)
      else find_loop w nm snapshot (w_procs w) s1
  end.

(** ** Module resolver *)

(** The loop of [Process::get_module], driven by [Module32Next]. *)
Fixpoint get_module_loop (module : RString) (snapshot : HANDLE)
    (rest : list MODULEENTRY32) (s : OsState) : io_result Module * OsState :=
  match rest with
  | [] => (Err NotFound, s)
  | entry :: rest' =>
      let c_module := decode_name (szModule entry) in
      if negb (rstr_eqb c_module module) then get_module_loop module snapshot rest' s
      else
        let s1 := CloseHandle snapshot s in
        (Ok {| m_name := c_module; address := modBaseAddr entry |}, s1)
  end.

(** [Process::get_module]: the module snapshot of [self.id]; its first
    [Module32Next] call starts at the OS's initial cursor. *)
Definition get_module (w : World) (self : Process) (module : RString)
    (s : OsState) : io_result Module * OsState :=
  match CreateToolhelp32Snapshot w s with
  | (Err _, s1) => (Err Interrupted, s1)
  | (Ok snapshot, s1) =>
      if Z.eqb snapshot INVALID_HANDLE_VALUE then (Err Interrupted, s1)
      else get_module_loop module snapshot
             (skipn (w_mod_cursor0 w) (w_mods w (id self))) s1
  end.

Definition module_of (entry : MODULEENTRY32) : Module :=
  {| m_name := decode_name (szModule entry); address := modBaseAddr entry |}.

(** The [loop { push; if Module32Next(..) == 0 { break } }] of
    [Process::get_all_modules], entered with the record [entry] that
    [Module32First] produced. *)
Fixpoint all_modules_loop (entry : MODULEENTRY32) (rest : list MODULEENTRY32)
    (modules : list Module) : list Module :=
  let modules := modules ++ [module_of entry] in
  match rest with
  | [] => modules                                             (* break *)
  | entry' :: rest' => all_modules_loop entry' rest' modules
  end.

(** [Process::get_all_modules] *)
Definition get_all_modules (w : World) (self : Process) (s : OsState)
  : io_result (list Module) * OsState :=
  match CreateToolhelp32Snapshot w s with
  | (Err _, s1) => (Err Interrupted, s1)
  | (Ok snapshot, s1) =>
      if Z.eqb snapshot INVALID_HANDLE_VALUE then (Err Interrupted, s1)
      else
        (* Module32First resets the cursor to the first record *)
        match w_mods w (id self) with
        | [] => (Ok [], s1)
        | entry :: rest =>
            let modules := all_modules_loop entry rest [] in
            (Ok modules, CloseHandle snapshot s1)
        end
  end.

End ProcessImpl.

(** ** Typed memory accessor *)

Module TypedMemory.

(** A byte of a target address space: its value and whether its page is
    writable; [None] is an address that is not accessible. *)
Record cell := { cval : u8; cwritable : bool }.
Definition Mem := Z -> option cell.

(** The address space each process handle designates. *)
Definition AddressSpaces := HANDLE -> Mem.

Definition upd {A} (f : Z -> A) (a : Z) (v : A) : Z -> A :=
  fun x => if Z.eqb x a then v else f x.

(** The copy performed by [ReadProcessMemory]: bytes are copied into the
    local buffer in order until [nsize] bytes were copied or an inaccessible
    address is met; the count of copied bytes is returned. *)
Fixpoint copy_in (m : Mem) (addr : Z) (n : nat) (buf : list u8) : list u8 * nat :=
  match n, buf with
  | S n', b :: buf' =>
      match m addr with
      | Some c => let '(r, k) := copy_in m (addr + 1) n' buf' in (cval c :: r, S k)
      | None => (buf, O)
      end
  | _, _ => (buf, O)
  end.

(** [ReadProcessMemory(handle, address, buffer, nsize, None)]: success flag,
    new buffer, count of bytes copied (reported as a partial copy when it
    is smaller than [nsize]). *)
Definition ReadProcessMemory (m : Mem) (addr : Z) (buf : list u8) (nsize : nat)
  : bool * list u8 * nat :=
  let '(buf', k) := copy_in m addr nsize buf in (Nat.eqb k nsize, buf', k).

(** The copy performed by [WriteProcessMemory]: bytes of [src] are stored in
    order until [n] bytes were stored or a non-writable address is met. *)
Fixpoint copy_out (m : Mem) (addr : Z) (src : list u8) (n : nat) : Mem * nat :=
  match n, src with
  | S n', b :: src' =>
      match m addr with
      | Some c =>
          if cwritable c then
            let '(m2, k) := copy_out (upd m addr (Some {| cval := b; cwritable := true |}))
                                     (addr + 1) src' n' in
            (m2, S k)
          else (m, O)
      | None => (m, O)
      end
  | _, _ => (m, O)
  end.

Definition WriteProcessMemory (m : Mem) (addr : Z) (src : list u8) (nsize : nat)
  : bool * Mem * nat :=
  let '(m', k) := copy_out m addr src nsize in (Nat.eqb k nsize, m', k).

(** The in-memory representation of a type [T]: [mem::size_of::<T>()],
    reading a [T] out of its bytes and the bytes of a [T]. *)
Class Layout (T : Type) := {
  size_of : nat;
  from_bytes : list u8 -> T;
  to_bytes : T -> list u8
}.

(** A fixed-layout type (no indirection): its bytes are [size_of] long and
    reading them back gives the value. *)
Class FixedLayout (T : Type) `{Layout T} := {
  to_bytes_length : forall v, List.length (to_bytes v) = size_of;
  from_to_bytes : forall v, from_bytes (to_bytes v) = v
}.

(** [mem::zeroed::<T>()] *)
Definition zeroed {T} `{Layout T} : T := from_bytes (repeat 0 size_of).

Section Accessor.
Context {T : Type} `{Layout T}.

(** [Process::read::<T>(&self, address)]: the returned flag and count of
    [ReadProcessMemory] are dropped. *)
Definition read (spaces : AddressSpaces) (self : Process) (address : Z) : T :=
  let buffer := repeat 0 size_of in
  let '(_, buffer, _) :=
    ReadProcessMemory (spaces (handle self)) address buffer size_of in
  from_bytes buffer.

(** [Process::write::<T>(&self, value, address)] *)
Definition write (spaces : AddressSpaces) (self : Process) (value : T)
    (address : Z) : AddressSpaces :=
  let '(_, m', _) :=
    WriteProcessMemory (spaces (handle self)) address (to_bytes value) size_of in
  upd spaces (handle self) m'.

End Accessor.

(** The maximal accessible run of bytes at [addr], at most [n] long. *)
Fixpoint readable_prefix (m : Mem) (addr : Z) (n : nat) : list u8 :=
  match n with
  | O => []
  | S n' => match m addr with
            | Some c => cval c :: readable_prefix m (addr + 1) n'
            | None => []
            end
  end.

(** *** [u32] *)

Definition u32 := { z : Z | (0 <=? z) && (z <? 2 ^ 32) = true }.

Lemma u32_mod_ok (z : Z) : (0 <=? z mod 2 ^ 32) && (z mod 2 ^ 32 <? 2 ^ 32) = true.
Proof.
  pose proof (Z.mod_pos_bound z (2 ^ 32) ltac:(lia)).
  apply andb_true_intro; split; [apply Z.leb_le | apply Z.ltb_lt]; lia.
Qed.

Definition u32_of_Z (z : Z) : u32 := exist _ (z mod 2 ^ 32) (u32_mod_ok z).

(** Little-endian bytes of a number, and the number of little-endian bytes. *)
Fixpoint le_bytes (n : nat) (z : Z) : list u8 :=
  match n with
  | O => []
  | S n' => z mod 256 :: le_bytes n' (z / 256)
  end.

Definition le_value (l : list u8) : Z := fold_right (fun b acc => b + 256 * acc) 0 l.

#[export] Instance Layout_u32 : Layout u32 := {
  size_of := 4;
  from_bytes l := u32_of_Z (le_value (firstn 4 l));
  to_bytes v := le_bytes 4 (proj1_sig v)
}.

End TypedMemory.

(** ** Ownership of [Process] values by a client *)

Module Ownership.

(** [#[derive(Clone)]]: every field is copied; [HANDLE] is [Copy]. *)
Definition process_clone (p : Process) : Process :=
  {| id := id p; name := name p; handle := handle p |}.

(** Dropping a [Process]: the struct has no [Drop] implementation and
    [HANDLE] has no destructor, so the OS state is left as it is. *)
Definition process_drop (p : Process) (s : OsState) : OsState := s.

(** A client's actions on the [Process] values it owns. *)
Inductive owner_op := OClone (i : nat) | ODrop (i : nat).

Fixpoint remove_at {A} (i : nat) (l : list A) : list A :=
  match i, l with
  | _, [] => []
  | O, _ :: l' => l'
  | S i', x :: l' => x :: remove_at i' l'
  end.

Fixpoint run_owners (ops : list owner_op) (owners : list Process) (s : OsState)
  : list Process * OsState :=
  match ops with
  | [] => (owners, s)
  | OClone i :: ops' =>
      match nth_error owners i with
      | Some p => run_owners ops' (owners ++ [process_clone p]) s
      | None => run_owners ops' owners s
      end
  | ODrop i :: ops' =>
      match nth_error owners i with
      | Some p => run_owners ops' (remove_at i owners) (process_drop p s)
      | None => run_owners ops' owners s
      end
  end.

End Ownership.

(** ** Concrete inputs *)

Module Samples.
Import ProcessImpl.

(** A zero-padded fixed-capacity name buffer holding [s]. *)
Definition name_buf (cap : nat) (s : string) : list u8 :=
  rstr s ++ repeat 0 (cap - String.length s).

Definition proc_entry (pid : Z) (s : string) : PROCESSENTRY32 :=
  {| th32ProcessID := pid; szExeFile := name_buf 260 s |}.

Definition mod_entry (base : Z) (s : string) : MODULEENTRY32 :=
  {| modBaseAddr := base; szModule := name_buf 256 s |}.

Definition s0 : OsState := {| next_handle := O; live := []; closed := [] |}.

(** One running process [app.exe] (id 7) whose handle opens, with
    [KERNEL32.DLL] loaded; the module cursor of a fresh snapshot at 0. *)
Definition world1 : World := {|
  w_snap := SnapOk;
  w_procs := [proc_entry 0 "[System Process]"; proc_entry 7 "app.exe"];
  w_mods := fun pid => if Z.eqb pid 7 then [mod_entry 4096 "KERNEL32.DLL"] else [];
  w_mod_cursor0 := O;
  w_open := fun pid => if Z.eqb pid 7 then OpenOk else OpenErr
|}.

(** The same, with [OpenProcess] refused for every id. *)
Definition world_denied : World := {|
  w_snap := SnapOk;
  w_procs := w_procs world1;
  w_mods := w_mods world1;
  w_mod_cursor0 := O;
  w_open := fun _ => OpenErr
|}.

(** A process with no enumerable module. *)
Definition world_nomods : World := {|
  w_snap := SnapOk;
  w_procs := w_procs world1;
  w_mods := fun _ => [];
  w_mod_cursor0 := O;
  w_open := w_open world1
|}.

Definition app : Process := {| id := 7; name := rstr "app.exe"; handle := 100 |}.

End Samples.

(** ** Lemmas *)

Lemma fresh_valid (s : OsState) : is_invalid (fresh s) = false.
Proof.
  unfold is_invalid, fresh.
  apply orb_false_intro; apply Z.eqb_neq; lia.
Qed.

Lemma rstr_eqb_true (a b : RString) : rstr_eqb a b = true <-> a = b.
Proof.
  unfold rstr_eqb; destruct (list_eq_dec Z.eq_dec a b); split; congruence.
Qed.

Lemma rstr_eqb_sym (a b : RString) : rstr_eqb a b = rstr_eqb b a.
Proof.
  unfold rstr_eqb.
  destruct (list_eq_dec Z.eq_dec a b), (list_eq_dec Z.eq_dec b a); congruence.
Qed.

Module MemoryFacts.
Import TypedMemory.

Lemma copy_in_zeroed (m : Mem) (addr : Z) (n : nat) :
  copy_in m addr n (repeat 0 n) =
  (readable_prefix m addr n ++ repeat 0 (n - List.length (readable_prefix m addr n)),
   List.length (readable_prefix m addr n)).
Proof.
  revert addr; induction n as [|n IH]; intros addr; [reflexivity|].
  cbn [copy_in repeat readable_prefix].
  destruct (m addr) as [c|]; [|reflexivity].
  rewrite IH; reflexivity.
Qed.

Definition writable_range (m : Mem) (a : Z) (n : nat) : Prop :=
  forall i, (i < n)%nat ->
    exists c, m (a + Z.of_nat i) = Some c /\ cwritable c = true.

Lemma copy_out_frame (n : nat) : forall m a src x,
  x < a -> fst (copy_out m a src n) x = m x.
Proof.
  induction n as [|n IH]; intros m a src x Hx; [destruct src; reflexivity|].
  destruct src as [|b src]; [reflexivity|].
  cbn [copy_out].
  destruct (m a) as [c|]; [|reflexivity].
  destruct (cwritable c); [|reflexivity].
  destruct (copy_out _ (a + 1) src n) as [m2 k] eqn:E.
  cbn [fst].
  assert (Hx' : x < a + 1) by lia.
  specialize (IH (upd m a (Some {| cval := b; cwritable := true |})) (a + 1) src x Hx').
  rewrite E in IH; cbn [fst] in IH; rewrite IH.
  unfold upd; destruct (Z.eqb_spec x a); [lia | reflexivity].
Qed.

Lemma copy_out_readback (n : nat) : forall m a src,
  writable_range m a n -> (n <= List.length src)%nat ->
  readable_prefix (fst (copy_out m a src n)) a n = firstn n src.
Proof.
  induction n as [|n IH]; intros m a src Hw Hlen; [reflexivity|].
  destruct src as [|b src]; [cbn in Hlen; lia|].
  destruct (Hw O ltac:(lia)) as [c [Hc Hcw]].
  rewrite Z.add_0_r in Hc.
  cbn [copy_out]; rewrite Hc, Hcw.
  set (m1 := upd m a (Some {| cval := b; cwritable := true |})).
  destruct (copy_out m1 (a + 1) src n) as [m2 k] eqn:E.
  cbn [fst readable_prefix firstn].
  assert (Ha : m2 a = Some {| cval := b; cwritable := true |}).
  { pose proof (copy_out_frame n m1 (a + 1) src a ltac:(lia)) as F.
    rewrite E in F; cbn [fst] in F; rewrite F.
    unfold m1, upd; rewrite Z.eqb_refl; reflexivity. }
  rewrite Ha; cbn [cval]; f_equal.
  assert (Hw1 : writable_range m1 (a + 1) n).
  { intros i Hi.
    destruct (Hw (S i) ltac:(lia)) as [c' [Hc' Hcw']].
    exists c'; split; [|exact Hcw'].
    unfold m1, upd.
    destruct (Z.eqb_spec (a + 1 + Z.of_nat i) a); [lia|].
    rewrite <- Hc'; f_equal; lia. }
  specialize (IH m1 (a + 1) src Hw1 ltac:(cbn in Hlen; lia)).
  rewrite E in IH; exact IH.
Qed.

Lemma le_roundtrip (n : nat) : forall z,
  0 <= z < 256 ^ Z.of_nat n -> le_value (le_bytes n z) = z.
Proof.
  induction n as [|n IH]; intros z Hz.
  - cbn in Hz |- *; lia.
  - rewrite Nat2Z.inj_succ, Z.pow_succ_r in Hz by lia.
    cbn [le_bytes le_value fold_right]; fold (le_value (le_bytes n (z / 256))).
    rewrite IH.
    + pose proof (Z.div_mod z 256 ltac:(lia)); lia.
    + split; [apply Z.div_pos; lia|].
      apply Z.div_lt_upper_bound; lia.
Qed.

Lemma u32_eq (a b : u32) : proj1_sig a = proj1_sig b -> a = b.
Proof.
  destruct a as [x p], b as [y q]; cbn; intros ->.
  f_equal; apply UIP_dec, bool_dec.
Qed.

#[export] Instance FixedLayout_u32 : FixedLayout u32.
Proof.
  split.
  - intros v; reflexivity.
  - intros [z Hz]; apply u32_eq; cbn [proj1_sig from_bytes to_bytes Layout_u32 u32_of_Z].
    apply andb_prop in Hz; destruct Hz as [H1 H2].
    apply Z.leb_le in H1; apply Z.ltb_lt in H2.
    change (firstn 4 (le_bytes 4 z)) with (le_bytes 4 z).
    rewrite le_roundtrip by (cbn; lia).
    apply Z.mod_small; lia.
Qed.

End MemoryFacts.

Module RegistryFacts.
Import ProcessImpl.

Definition proj_p (p : Process) : Z * RString := (id p, name p).
Definition proj_e (e : PROCESSENTRY32) : Z * RString :=
  (th32ProcessID e, decode_name (szExeFile e)).
Definition opens (w : World) (e : PROCESSENTRY32) : bool :=
  match w_open w (th32ProcessID e) with OpenOk => true | _ => false end.

Lemma all_loop_spec (w : World) (rest : list PROCESSENTRY32) : forall result s,
  map proj_p (fst (all_loop w rest result s)) =
  map proj_p result ++ map proj_e (filter (opens w) rest).
Proof.
  induction rest as [|e rest IH]; intros result s.
  - cbn; rewrite app_nil_r; reflexivity.
  - cbn [all_loop filter]; unfold opens at 1, OpenProcess.
    destruct (w_open w (th32ProcessID e)); cbn [alloc].
    + apply IH.
    + replace (is_invalid 0) with true by reflexivity; apply IH.
    + rewrite fresh_valid, IH, map_app, <- app_assoc; reflexivity.
Qed.

Definition matches (nm : RString) (e : PROCESSENTRY32) : bool :=
  rstr_eqb nm (decode_name (szExeFile e)).

(** What [find] answers once it has met the record [e]. *)
Definition found_result (w : World) (nm : RString) (e : PROCESSENTRY32)
    (r : io_result Process) : Prop :=
  match w_open w (th32ProcessID e) with
  | OpenOk => exists h, r = Ok {| id := th32ProcessID e; name := nm; handle := h |}
                        /\ is_invalid h = false
  | OpenErr => r = Err Interrupted
  | OpenInvalid => r = Err InvalidData
  end.

Lemma find_loop_spec (w : World) (nm : RString) (snapshot : HANDLE)
    (rest : list PROCESSENTRY32) : forall s,
  match List.find (matches nm) rest with
  | None => fst (find_loop w nm snapshot rest s) = Err NotFound
  | Some e => found_result w nm e (fst (find_loop w nm snapshot rest s))
  end.
Proof.
  induction rest as [|e rest IH]; intros s; [reflexivity|].
  cbn [List.find find_loop]; unfold matches at 1.
  destruct (rstr_eqb nm (decode_name (szExeFile e))) eqn:Em; cbn [negb];
    [|apply IH].
  apply rstr_eqb_true in Em; rewrite <- Em.
  unfold found_result, OpenProcess.
  destruct (w_open w (th32ProcessID e)); cbn [alloc].
  - reflexivity.
  - reflexivity.
  - rewrite fresh_valid; cbn [fst].
    exists (fresh s); split; [reflexivity | apply fresh_valid].
Qed.

End RegistryFacts.

(** ** The claims *)

Import ProcessImpl TypedMemory MemoryFacts RegistryFacts Ownership Samples.

(** The module snapshot of [world1] when the cursor of a fresh snapshot
    sits after the first record. *)
Definition world_cursor1 : World := {|
  w_snap := SnapOk;
  w_procs := w_procs world1;
  w_mods := w_mods world1;
  w_mod_cursor0 := 1;
  w_open := w_open world1
|}.

(** An address space with a single accessible byte, 42 at address 0. *)
Definition one_byte_space : AddressSpaces :=
  fun _ a => if Z.eqb a 0 then Some {| cval := 42; cwritable := false |} else None.

(** Four writable zero bytes at 0x1000. *)
Definition rw_space : AddressSpaces :=
  fun _ a => if (4096 <=? a) && (a <? 4100)
             then Some {| cval := 0; cwritable := true |} else None.

(** C1 (snapshot release in [Process::find]): the snapshot handle (4, the
    first handle of [s0]) is closed on the match path, but it is still open
    and never passed to [CloseHandle] when [find] returns [NotFound] and when
    [OpenProcess] fails for the matching record. *)
Theorem find_snapshot_not_released :
  snd (find world1 (rstr "app.exe") s0) =
    {| next_handle := 2; live := [8]; closed := [4] |}
  /\ find world1 (rstr "b.exe") s0 =
       (Err NotFound, {| next_handle := 1; live := [4]; closed := [] |})
  /\ find world_denied (rstr "app.exe") s0 =
       (Err Interrupted, {| next_handle := 1; live := [4]; closed := [] |}).
Proof. vm_compute; repeat split. Qed.

(** C2 (amended: no release of the process handle): cloning and dropping
    [Process] values never changes the OS handle table, so the handle is
    released by none of its owners; every clone carries the raw handle of a
    value it was cloned from. *)
Theorem owners_never_release (ops : list owner_op) : forall owners s,
  snd (run_owners ops owners s) = s
  /\ (forall q, In q (fst (run_owners ops owners s)) ->
        exists p, In p owners /\ handle q = handle p).
Proof.
  induction ops as [|op ops IH]; intros owners s.
  - split; [reflexivity|]. intros q Hq; exists q; split; [exact Hq | reflexivity].
  - destruct op as [i|i]; cbn [run_owners];
      destruct (nth_error owners i) as [p|] eqn:Hp; try apply IH.
    + destruct (IH (owners ++ [process_clone p]) s) as [Hs Hh].
      split; [exact Hs|].
      intros q Hq; destruct (Hh q Hq) as [r [Hr Hqr]].
      apply in_app_or in Hr; destruct Hr as [Hr|[<-|[]]].
      * exists r; split; assumption.
      * exists p; split; [eapply nth_error_In; eassumption | exact Hqr].
    + destruct (IH (remove_at i owners) (process_drop p s)) as [Hs Hh].
      split; [exact Hs|].
      intros q Hq; destruct (Hh q Hq) as [r [Hr Hqr]].
      exists r; split; [|exact Hqr].
      clear -Hr; revert owners Hr; induction i as [|i IHi]; intros owners Hr;
        destruct owners as [|x owners]; cbn in Hr |- *; try tauto.
      destruct Hr as [<-|Hr]; [left; reflexivity | right; apply IHi, Hr].
Qed.

(** C2 counterexample: the process found in [world1] (handle 8) is cloned
    and both owners are dropped; afterwards no owner is left, the handle is
    still open and [CloseHandle] was called on it zero times, not once. *)
Lemma process_handle_never_released :
  match find world1 (rstr "app.exe") s0 with
  | (Ok p, s1) =>
      let '(owners, s2) := run_owners [OClone 0; ODrop 0; ODrop 0] [p] s1 in
      owners = [] /\ In (handle p) (live s2)
      /\ count_occ Z.eq_dec (closed s2) (handle p) = O
  | _ => False
  end.
Proof. vm_compute; repeat split; auto. Qed.

(** C3 (amended: best-effort read): [read::<T>] starts from
    [size_of::<T>()] zero bytes, asks the OS for [size_of::<T>()] bytes and
    returns a [T] whatever the OS reports: the bytes the OS copied (the
    accessible run at [address]) followed by the untouched zero bytes; when
    the OS copies nothing, the result is [mem::zeroed::<T>()]. *)
Theorem read_best_effort {T} `{Layout T} (spaces : AddressSpaces)
    (self : Process) (address : Z) :
  let pref := readable_prefix (spaces (handle self)) address size_of in
  read spaces self address = from_bytes (pref ++ repeat 0 (size_of - List.length pref))
  /\ (pref = [] -> read spaces self address = zeroed).
Proof.
  cbv zeta.
  assert (E : read spaces self address =
    from_bytes (readable_prefix (spaces (handle self)) address size_of
      ++ repeat 0 (size_of - List.length
                     (readable_prefix (spaces (handle self)) address size_of)))).
  { unfold read, ReadProcessMemory; rewrite copy_in_zeroed; reflexivity. }
  split; [exact E|].
  intros Hp; rewrite E, Hp; cbn [List.length app].
  rewrite Nat.sub_0_r; reflexivity.
Qed.

Lemma read_best_effort_witness :
  readable_prefix (rw_space (handle app)) 0 4 = []
  /\ read (T := u32) rw_space app 0 = zeroed.
Proof.
  split; [reflexivity|].
  apply (proj2 (read_best_effort (T := u32) rw_space app 0)); reflexivity.
Defined.

(** C3 counterexample: reading a [u32] at 0 where only one byte is
    accessible, the OS reports failure after copying 1 byte of 4, and the
    value returned is 42, not the zero-initialized value. *)
Lemma read_partial_copy_not_zeroed :
  ReadProcessMemory (one_byte_space (handle app)) 0 (repeat 0 4) 4
    = (false, [42; 0; 0; 0], 1%nat)
  /\ proj1_sig (read (T := u32) one_byte_space app 0) = 42
  /\ read (T := u32) one_byte_space app 0 <> zeroed.
Proof.
  split; [reflexivity|]. split; [reflexivity|].
  intros Heq; apply (f_equal (@proj1_sig _ _)) in Heq.
  vm_compute in Heq; discriminate.
Qed.

(** C4 (write/read round trip): for a fixed-layout [T], writing [v] at an
    address whose [size_of::<T>()] bytes are writable and reading a [T] back
    at the same address of the same process gives [v]. *)
Theorem write_read_roundtrip {T} `{FixedLayout T} (spaces : AddressSpaces)
    (self : Process) (v : T) (address : Z)
    (Hw : writable_range (spaces (handle self)) address size_of) :
  read (write spaces self v address) self address = v.
Proof.
  unfold write, WriteProcessMemory.
  destruct (copy_out (spaces (handle self)) address (to_bytes v) size_of)
    as [m' k] eqn:E.
  pose proof (copy_out_readback size_of (spaces (handle self)) address
                (to_bytes v) Hw ltac:(rewrite to_bytes_length; lia)) as R.
  rewrite E in R; cbn [fst] in R.
  rewrite (proj1 (read_best_effort _ self address)).
  unfold upd; rewrite Z.eqb_refl, R.
  rewrite firstn_all2 by (rewrite to_bytes_length; lia).
  rewrite to_bytes_length, Nat.sub_diag, app_nil_r.
  apply from_to_bytes.
Qed.

Lemma write_read_roundtrip_witness :
  writable_range (rw_space (handle app)) 4096 size_of
  /\ read (write rw_space app (u32_of_Z 123456789) 4096) app 4096
     = u32_of_Z 123456789.
Proof.
  assert (Hw : writable_range (rw_space (handle app)) 4096 size_of).
  { intros i Hi; cbn in Hi.
    destruct i as [|[|[|[|i]]]]; try lia;
      eexists; split; reflexivity. }
  split; [exact Hw|].
  apply (write_read_roundtrip rw_space app (u32_of_Z 123456789) 4096 Hw).
Defined.

(** C5 counterexample: [world_denied] has a record [app.exe] (id 7), the
    first whose name matches, but [OpenProcess] fails for it, so [find]
    returns an [Interrupted] failure rather than a [Process] with id 7. *)
Lemma find_open_failure_not_process :
  List.find (matches (rstr "app.exe")) (w_procs world_denied)
    = Some (proc_entry 7 "app.exe")
  /\ fst (find world_denied (rstr "app.exe") s0) = Err Interrupted.
Proof. split; reflexivity. Qed.

(** C5 (amended: first match, or its handle failure): once the snapshot is
    taken, [find nm] returns [NotFound] exactly when no enumerated record's
    decoded name equals [nm]; otherwise it answers from the first such record
    only: a [Process] with that record's id and name [nm] (and a valid
    handle) when [OpenProcess] succeeds for it, an [Interrupted] failure when
    [OpenProcess] fails, an [InvalidData] failure when the handle is
    invalid. *)
Theorem find_first_match (w : World) (nm : RString) (s : OsState)
    (Hsnap : w_snap w = SnapOk) :
  match List.find (matches nm) (w_procs w) with
  | None => fst (find w nm s) = Err NotFound
  | Some e => found_result w nm e (fst (find w nm s))
  end.
Proof.
  unfold find, CreateToolhelp32Snapshot; rewrite Hsnap; cbn [alloc].
  assert (Hne : Z.eqb (fresh s) INVALID_HANDLE_VALUE = false).
  { apply Z.eqb_neq; unfold fresh, INVALID_HANDLE_VALUE; lia. }
  rewrite Hne; apply find_loop_spec.
Qed.

Lemma find_first_match_witness :
  w_snap world1 = SnapOk
  /\ found_result world1 (rstr "app.exe") (proc_entry 7 "app.exe")
       (fst (find world1 (rstr "app.exe") s0)).
Proof.
  split; [reflexivity|].
  pose proof (find_first_match world1 (rstr "app.exe") s0 eq_refl) as F.
  exact F.
Defined.

(** C6 (best-effort listing): once the snapshot is taken, [all] succeeds,
    and the ids and names of the processes it returns are, in order, those of
    the enumerated records for which [OpenProcess] yields a valid handle; the
    other records are skipped. *)
Theorem all_skips_unopenable (w : World) (s : OsState)
    (Hsnap : w_snap w = SnapOk) :
  exists ps, fst (all w s) = Ok ps
    /\ map proj_p ps = map proj_e (filter (opens w) (w_procs w)).
Proof.
  unfold all, CreateToolhelp32Snapshot; rewrite Hsnap; cbn [alloc].
  assert (Hne : Z.eqb (fresh s) INVALID_HANDLE_VALUE = false).
  { apply Z.eqb_neq; unfold fresh, INVALID_HANDLE_VALUE; lia. }
  rewrite Hne.
  pose proof (all_loop_spec w (w_procs w) []
    {| next_handle := S (next_handle s); live := fresh s :: live s;
       closed := closed s |}) as L.
  destruct (all_loop w (w_procs w) [] _) as [ps s2].
  exists ps; split; [reflexivity | exact L].
Qed.

Lemma all_skips_unopenable_witness :
  w_snap world1 = SnapOk
  /\ exists ps, fst (all world1 s0) = Ok ps
       /\ map proj_p ps = [(7, rstr "app.exe")].
Proof.
  split; [reflexivity|].
  destruct (all_skips_unopenable world1 s0 eq_refl) as [ps [H1 H2]].
  exists ps; split; [exact H1|].
  rewrite H2; reflexivity.
Defined.

(** C7 (empty module list): for a process with no enumerable module,
    [get_all_modules] returns an empty list as a success, but the snapshot
    handle (4) is still open and was never passed to [CloseHandle]. *)
Theorem get_all_modules_empty_leaks :
  get_all_modules world_nomods app s0
    = (Ok [], {| next_handle := 1; live := [4]; closed := [] |}).
Proof. reflexivity. Qed.

(** C8 (module lookup): [get_module] closes the snapshot and returns the
    module on a match, but on [NotFound] the snapshot handle (4) is still
    open and was never passed to [CloseHandle]. *)
Theorem get_module_notfound_leaks :
  get_module world1 app (rstr "KERNEL32.DLL") s0
    = (Ok {| m_name := rstr "KERNEL32.DLL"; address := 4096 |},
       {| next_handle := 1; live := []; closed := [4] |})
  /\ get_module world1 app (rstr "NONEXISTENT.DLL") s0
    = (Err NotFound, {| next_handle := 1; live := [4]; closed := [] |}).
Proof. split; reflexivity. Qed.

(** C9 (name decoding): a name buffer decodes to exactly its bytes before
    the first zero byte, each taken as one character; nothing at or after
    that zero is included. *)
Theorem decode_name_stops_at_zero (p r : list u8)
    (Hp : Forall (fun b => b <> 0) p) :
  decode_name (p ++ 0 :: r) = map byte_as_char p.
Proof.
  unfold decode_name; f_equal.
  induction Hp as [|b p Hb Hp IH]; [reflexivity|].
  simpl.
  destruct (Z.eqb_spec b 0) as [E|_]; [contradiction|].
  cbn [negb]; f_equal; exact IH.
Qed.

Lemma decode_name_stops_at_zero_witness :
  Forall (fun b => b <> 0) [97; 98; 99]
  /\ decode_name ([97; 98; 99] ++ 0 :: [255; 7]) = rstr "abc".
Proof.
  assert (Hp : Forall (fun b => b <> 0) [97; 98; 99]).
  { repeat constructor; lia. }
  split; [exact Hp|].
  etransitivity; [apply (decode_name_stops_at_zero [97; 98; 99] [255; 7] Hp)|].
  reflexivity.
Defined.

(** The outcome of a lookup of the first module by [get_module] depends on
    where a fresh module snapshot's cursor sits: with the cursor at the first
    record the module [get_all_modules] lists is found, with the cursor after
    it the same lookup reports [NotFound]. *)
Lemma get_module_depends_on_cursor :
  fst (get_all_modules world1 app s0)
    = Ok [{| m_name := rstr "KERNEL32.DLL"; address := 4096 |}]
  /\ fst (get_module world1 app (rstr "KERNEL32.DLL") s0)
    = Ok {| m_name := rstr "KERNEL32.DLL"; address := 4096 |}
  /\ fst (get_all_modules world_cursor1 app s0)
    = Ok [{| m_name := rstr "KERNEL32.DLL"; address := 4096 |}]
  /\ fst (get_module world_cursor1 app (rstr "KERNEL32.DLL") s0) = Err NotFound.
Proof. repeat split. Qed.

(** ** Further properties of the crate *)

Lemma positive_valid (h : HANDLE) : 0 < h -> is_invalid h = false.
Proof.
  intros Hh; unfold is_invalid; apply orb_false_intro; apply Z.eqb_neq; lia.
Qed.

Lemma fresh_alloc (s : OsState) : fresh (snd (alloc s)) = fresh s + 4.
Proof. unfold fresh; cbn [snd alloc next_handle]; lia. Qed.

Lemma fresh_pos (s : OsState) : 4 <= fresh s.
Proof. unfold fresh; lia. Qed.

Lemma all_loop_state (w : World) (rest : list PROCESSENTRY32) : forall result s,
  exists added s',
    all_loop w rest result s = (result ++ added, s')
    /\ live s' = rev (map handle added) ++ live s
    /\ closed s' = closed s
    /\ NoDup (map handle added)
    /\ Forall (fun p => fresh s <= handle p < fresh s') added
    /\ fresh s <= fresh s'.
Proof.
  induction rest as [|e rest IH]; intros result s.
  - exists [], s; rewrite app_nil_r; repeat split; try constructor; lia.
  - cbn [all_loop]; unfold OpenProcess.
    destruct (w_open w (th32ProcessID e)); cbn [alloc].
    + apply IH.
    + replace (is_invalid 0) with true by reflexivity; apply IH.
    + rewrite fresh_valid.
      set (s1 := {| next_handle := S (next_handle s); live := fresh s :: live s;
                    closed := closed s |}).
      set (p := {| id := th32ProcessID e; name := decode_name (szExeFile e);
                   handle := fresh s |}).
      destruct (IH (result ++ [p]) s1) as (added & s' & E & Hl & Hc & Hd & Hb & Hm).
      assert (F1 : fresh s1 = fresh s + 4) by (unfold fresh, s1; cbn [next_handle]; rewrite Nat2Z.inj_succ; lia).
      exists (p :: added), s'; repeat split.
      * rewrite E, <- app_assoc; reflexivity.
      * rewrite Hl; cbn [map rev]; rewrite <- app_assoc; reflexivity.
      * exact Hc.
      * constructor; [|exact Hd].
        intros Hin; apply in_map_iff in Hin; destruct Hin as (q & Hq & Hin).
        rewrite Forall_forall in Hb; specialize (Hb q Hin).
        cbn [p handle] in Hq; lia.
      * constructor.
        -- cbn [p handle]; lia.
        -- eapply Forall_impl; [|exact Hb]; intros q Hq; cbv beta in Hq |- *; lia.
      * lia.
Qed.

(** [Process::all], once its snapshot is taken from a state that does not
    already hold the snapshot's handle, succeeds; it leaves open exactly one
    new handle per listed process (pairwise distinct and valid) and closes
    exactly the snapshot. *)
Theorem all_handle_accounting (w : World) (s : OsState)
    (Hsnap : w_snap w = SnapOk) (Hfresh : ~ In (fresh s) (live s)) :
  exists ps, fst (all w s) = Ok ps
    /\ live (snd (all w s)) = rev (map handle ps) ++ live s
    /\ closed (snd (all w s)) = closed s ++ [fresh s]
    /\ NoDup (map handle ps)
    /\ Forall (fun p => is_invalid (handle p) = false) ps.
Proof.
  unfold all, CreateToolhelp32Snapshot; rewrite Hsnap; cbn [alloc].
  assert (Hne : Z.eqb (fresh s) INVALID_HANDLE_VALUE = false).
  { apply Z.eqb_neq; unfold fresh, INVALID_HANDLE_VALUE; lia. }
  rewrite Hne.
  set (s1 := {| next_handle := S (next_handle s); live := fresh s :: live s;
                closed := closed s |}).
  assert (F1 : fresh s1 = fresh s + 4) by (unfold fresh, s1; cbn [next_handle]; rewrite Nat2Z.inj_succ; lia).
  destruct (all_loop_state w (w_procs w) [] s1) as (ps & s' & E & Hl & Hc & Hd & Hb & Hm).
  rewrite E; cbn [app fst snd CloseHandle live closed].
  exists ps; repeat split.
  - rewrite Hl; cbn [s1 live].
    rewrite remove_app, remove_cons, (notin_remove _ (live s) (fresh s) Hfresh).
    rewrite notin_remove; [reflexivity|].
    rewrite <- in_rev; intros Hin; apply in_map_iff in Hin.
    destruct Hin as (q & Hq & Hin); rewrite Forall_forall in Hb.
    specialize (Hb q Hin); lia.
  - rewrite Hc; reflexivity.
  - exact Hd.
  - eapply Forall_impl; [|exact Hb]; intros q Hq.
    cbv beta in Hq; apply positive_valid; pose proof (fresh_pos s); lia.
Qed.

Lemma all_handle_accounting_witness :
  w_snap world1 = SnapOk /\ ~ In (fresh s0) (live s0)
  /\ exists ps, fst (all world1 s0) = Ok ps
       /\ live (snd (all world1 s0)) = rev (map handle ps) ++ live s0
       /\ closed (snd (all world1 s0)) = closed s0 ++ [fresh s0]
       /\ NoDup (map handle ps)
       /\ Forall (fun p => is_invalid (handle p) = false) ps.
Proof.
  assert (Hf : ~ In (fresh s0) (live s0)) by (cbn; tauto).
  split; [reflexivity|]; split; [exact Hf|].
  exact (all_handle_accounting world1 s0 eq_refl Hf).
Defined.

Lemma find_loop_ok (w : World) (nm : RString) (snapshot : HANDLE)
    (rest : list PROCESSENTRY32) : forall s p st,
  find_loop w nm snapshot rest s = (Ok p, st) ->
  handle p = fresh s /\ st = CloseHandle snapshot (snd (alloc s)).
Proof.
  induction rest as [|e rest IH]; intros s p st E; [discriminate|].
  cbn [find_loop] in E.
  destruct (negb _); [exact (IH _ _ _ E)|].
  unfold OpenProcess in E.
  destruct (w_open w (th32ProcessID e)); cbn [alloc] in E; try discriminate.
  rewrite fresh_valid in E; injection E as <- <-; split; reflexivity.
Qed.

(** [Process::find], when it returns a process, has opened exactly one
    handle that stays open, the process's own, and has closed exactly the
    snapshot. *)
Theorem find_success_handles (w : World) (nm : RString) (s : OsState)
    (p : Process) (Hfresh : ~ In (fresh s) (live s))
    (Hok : fst (find w nm s) = Ok p) :
  live (snd (find w nm s)) = handle p :: live s
  /\ closed (snd (find w nm s)) = closed s ++ [fresh s].
Proof.
  revert Hok; unfold find, CreateToolhelp32Snapshot.
  destruct (w_snap w); cbn [alloc fst]; try discriminate.
  assert (Hne : Z.eqb (fresh s) INVALID_HANDLE_VALUE = false).
  { apply Z.eqb_neq; unfold fresh, INVALID_HANDLE_VALUE; lia. }
  rewrite Hne.
  set (s1 := {| next_handle := S (next_handle s); live := fresh s :: live s;
                closed := closed s |}).
  destruct (find_loop w nm (fresh s) (w_procs w) s1) as [r st] eqn:E.
  cbn [fst snd]; intros ->.
  destruct (find_loop_ok w nm (fresh s) (w_procs w) s1 p st E) as [Hh ->].
  assert (F1 : fresh s1 = fresh s + 4)
    by (unfold fresh, s1; cbn [next_handle]; rewrite Nat2Z.inj_succ; lia).
  cbn [CloseHandle alloc live closed s1 snd]; split; [|reflexivity].
  rewrite Hh; cbn [remove].
  destruct (Z.eq_dec (fresh s) (fresh s1)) as [Heq|_]; [lia|].
  destruct (Z.eq_dec (fresh s) (fresh s)) as [_|Hn]; [|congruence].
  rewrite (notin_remove _ (live s) (fresh s) Hfresh); reflexivity.
Qed.

Lemma find_success_handles_witness :
  ~ In (fresh s0) (live s0)
  /\ fst (find world1 (rstr "app.exe") s0) = Ok {| id := 7; name := rstr "app.exe"; handle := 8 |}
  /\ live (snd (find world1 (rstr "app.exe") s0)) = [8] ++ live s0
  /\ closed (snd (find world1 (rstr "app.exe") s0)) = closed s0 ++ [fresh s0].
Proof.
  assert (Hf : ~ In (fresh s0) (live s0)) by (cbn; tauto).
  assert (Hok : fst (find world1 (rstr "app.exe") s0)
                = Ok {| id := 7; name := rstr "app.exe"; handle := 8 |}) by reflexivity.
  split; [exact Hf|]; split; [exact Hok|].
  exact (find_success_handles world1 (rstr "app.exe") s0 _ Hf Hok).
Defined.

Definition module_matches (module : RString) (e : MODULEENTRY32) : bool :=
  rstr_eqb (decode_name (szModule e)) module.

Lemma get_module_loop_spec (module : RString) (snapshot : HANDLE)
    (rest : list MODULEENTRY32) : forall s,
  get_module_loop module snapshot rest s =
  match List.find (module_matches module) rest with
  | Some e => (Ok (module_of e), CloseHandle snapshot s)
  | None => (Err NotFound, s)
  end.
Proof.
  induction rest as [|e rest IH]; intros s; [reflexivity|].
  cbn [get_module_loop List.find]; unfold module_matches at 1.
  destruct (rstr_eqb (decode_name (szModule e)) module); [reflexivity | apply IH].
Qed.

(** [Process::get_module], once its snapshot is taken, returns the first
    record its [Module32Next] calls yield whose decoded name equals the
    query, as a module with that name and base address, after closing the
    snapshot; it returns [NotFound] when no such record is yielded. *)
Theorem get_module_first_match (w : World) (self : Process) (module : RString)
    (s : OsState) (Hsnap : w_snap w = SnapOk) :
  match List.find (module_matches module)
          (skipn (w_mod_cursor0 w) (w_mods w (id self))) with
  | Some e => get_module w self module s = (Ok (module_of e), CloseHandle (fresh s) (snd (alloc s)))
             /\ m_name (module_of e) = module
  | None => fst (get_module w self module s) = Err NotFound
  end.
Proof.
  unfold get_module, CreateToolhelp32Snapshot; rewrite Hsnap; cbn [alloc].
  assert (Hne : Z.eqb (fresh s) INVALID_HANDLE_VALUE = false).
  { apply Z.eqb_neq; unfold fresh, INVALID_HANDLE_VALUE; lia. }
  rewrite Hne, get_module_loop_spec.
  destruct (List.find (module_matches module) _) as [e|] eqn:F; [|reflexivity].
  split; [reflexivity|].
  apply find_some in F; destruct F as [_ F].
  unfold module_matches in F; apply rstr_eqb_true in F; exact F.
Qed.

Lemma get_module_first_match_witness :
  w_snap world1 = SnapOk
  /\ get_module world1 app (rstr "KERNEL32.DLL") s0
     = (Ok (module_of (mod_entry 4096 "KERNEL32.DLL")),
        CloseHandle (fresh s0) (snd (alloc s0))).
Proof.
  split; [reflexivity|].
  exact (proj1 (get_module_first_match world1 app (rstr "KERNEL32.DLL") s0 eq_refl)).
Defined.

Lemma all_modules_loop_spec (entry : MODULEENTRY32) (rest : list MODULEENTRY32) :
  forall acc, all_modules_loop entry rest acc = acc ++ map module_of (entry :: rest).
Proof.
  revert entry; induction rest as [|e rest IH]; intros entry acc; [reflexivity|].
  cbn [all_modules_loop]; rewrite IH, <- app_assoc; reflexivity.
Qed.

(** [Process::get_all_modules] on a process with at least one module returns
    every record of the module snapshot, in order, as (decoded name, base
    address) modules, and closes the snapshot. *)
Theorem get_all_modules_lists_all (w : World) (self : Process) (s : OsState)
    (Hsnap : w_snap w = SnapOk) (Hne : w_mods w (id self) <> []) :
  get_all_modules w self s
  = (Ok (map module_of (w_mods w (id self))), CloseHandle (fresh s) (snd (alloc s))).
Proof.
  unfold get_all_modules, CreateToolhelp32Snapshot; rewrite Hsnap; cbn [alloc].
  assert (Hinv : Z.eqb (fresh s) INVALID_HANDLE_VALUE = false).
  { apply Z.eqb_neq; unfold fresh, INVALID_HANDLE_VALUE; lia. }
  rewrite Hinv.
  destruct (w_mods w (id self)) as [|e rest]; [congruence|].
  rewrite all_modules_loop_spec; reflexivity.
Qed.

Lemma get_all_modules_lists_all_witness :
  w_snap world1 = SnapOk /\ w_mods world1 (id app) <> []
  /\ get_all_modules world1 app s0
     = (Ok [module_of (mod_entry 4096 "KERNEL32.DLL")],
        CloseHandle (fresh s0) (snd (alloc s0))).
Proof.
  assert (Hne : w_mods world1 (id app) <> []) by discriminate.
  split; [reflexivity|]; split; [exact Hne|].
  exact (get_all_modules_lists_all world1 app s0 eq_refl Hne).
Defined.

(** When no usable snapshot can be taken ([CreateToolhelp32Snapshot] fails
    or yields the invalid sentinel), each of [all], [find], [get_module] and
    [get_all_modules] fails with [Interrupted] and leaves the handle table
    as it was. *)
Theorem snapshot_failure_interrupted (w : World) (self : Process)
    (nm module : RString) (s : OsState) (Hsnap : w_snap w <> SnapOk) :
  all w s = (Err Interrupted, s)
  /\ find w nm s = (Err Interrupted, s)
  /\ get_module w self module s = (Err Interrupted, s)
  /\ get_all_modules w self s = (Err Interrupted, s).
Proof.
  unfold all, find, get_module, get_all_modules, CreateToolhelp32Snapshot.
  destruct (w_snap w); [| |congruence]; repeat split.
Qed.

Lemma snapshot_failure_interrupted_witness :
  let w := {| w_snap := SnapInvalid; w_procs := w_procs world1;
              w_mods := w_mods world1; w_mod_cursor0 := O;
              w_open := w_open world1 |} in
  w_snap w <> SnapOk /\ find w (rstr "app.exe") s0 = (Err Interrupted, s0).
Proof.
  cbv zeta.
  assert (H : SnapInvalid <> SnapOk) by discriminate.
  split; [exact H|].
  exact (proj1 (proj2 (snapshot_failure_interrupted
    {| w_snap := SnapInvalid; w_procs := w_procs world1;
       w_mods := w_mods world1; w_mod_cursor0 := O; w_open := w_open world1 |}
    app (rstr "app.exe") (rstr "app.exe") s0 H))).
Defined.




(** [Process::write] at an address whose first byte is inaccessible or not
    writable changes nothing, silently. *)
Theorem write_unwritable_noop {T} `{Layout T} (spaces : AddressSpaces)
    (self : Process) (v : T) (address : Z)
    (Hn : match spaces (handle self) address with
          | Some c => cwritable c = false
          | None => True
          end) :
  forall h x, write spaces self v address h x = spaces h x.
Proof.
  intros h x; unfold write, WriteProcessMemory.
  assert (E : copy_out (spaces (handle self)) address (to_bytes v) size_of
              = (spaces (handle self), O)).
  { destruct size_of as [|n]; [destruct (to_bytes v); reflexivity|].
    destruct (to_bytes v) as [|b src]; [reflexivity|].
    cbn [copy_out]; destruct (spaces (handle self) address) as [c|]; [|reflexivity].
    rewrite Hn; reflexivity. }
  rewrite E; unfold upd.
  destruct (Z.eqb_spec h (handle self)) as [->|_]; reflexivity.
Qed.

Lemma write_unwritable_noop_witness :
  one_byte_space (handle app) 0 = Some {| cval := 42; cwritable := false |}
  /\ write one_byte_space app (u32_of_Z 7) 0 (handle app) 0
     = one_byte_space (handle app) 0.
Proof.
  split; [reflexivity|].
  exact (write_unwritable_noop one_byte_space app (u32_of_Z 7) 0 eq_refl (handle app) 0).
Defined.

(** A decoded name never contains the character 0, and the buffer is the
    decoded name followed either by nothing (no zero in the buffer) or by a
    zero byte and whatever comes after it. *)
Theorem decode_name_prefix (buf : list u8) :
  Forall (fun c => c <> 0) (decode_name buf)
  /\ exists rest, buf = decode_name buf ++ rest
       /\ (rest = [] \/ exists r, rest = 0 :: r).
Proof.
  unfold decode_name, byte_as_char; rewrite map_id.
  induction buf as [|b buf [IHf (rest & IHe & IHr)]].
  - split; [constructor|]. exists []; split; [reflexivity | left; reflexivity].
  - cbn [take_while]; destruct (Z.eqb_spec b 0) as [->|Hb]; cbn [negb].
    + split; [constructor|]. exists (0 :: buf); split; [reflexivity|].
      right; exists buf; reflexivity.
    + split; [constructor; assumption|].
      exists rest; split; [rewrite <- app_comm_cons; f_equal; exact IHe | exact IHr].
Qed.



